(** * gostl: the Bloom filter of [ds/bloomfilter/bloom.go]

    A shallow embedding of the package [bloom] and of the pieces of the Go
    standard library it calls ([encoding/binary], [bytes.Reader], slicing),
    followed by the properties of the filter.

    Conventions.
    - A [uint64] is a [Z] in the range [0, 2^64); a byte is a [Z] in
      [0, 256).  Conversions that wrap in Go are written out.
    - A Go run-time panic is the [Panic] outcome of the [result] monad; it
      ends the computation, and what a panicking call had already written
      is not observed.
    - The locker of the filter is the no-op [FakeLocker] unless the option
      [WithThreadSave] is given; either way every method body runs as one
      sequential block, which is what is modelled here.
    - [EstimateParameters] computes in [float64] ([math.Log], [math.Ceil]);
      its body is not modelled, [NewWithEstimates] takes it as a
      parameter. *)

From Stdlib Require Import ZArith Lia Bool List String Ascii.
From stdpp Require Import base list.
Import ListNotations.

Local Open Scope Z_scope.

(** ** Outcomes of Go code that may panic *)

Inductive panic : Type :=
| DivideByZero          (* integer divide by zero *)
| IndexOutOfRange       (* index out of range on a slice *)
| SliceBoundsOutOfRange (* slice bounds out of range *)
| BitBounds.            (* bit index outside the capacity of a bit array *)

Inductive result (A : Type) : Type :=
| Ok (a : A)
| Panic (p : panic).

Arguments Ok {A} a.
Arguments Panic {A} p.

Definition bind {A B : Type} (r : result A) (f : A -> result B) : result B :=
  match r with
  | Ok a => f a
  | Panic p => Panic p
  end.

Notation "'let?' x ':=' r 'in' k" := (bind r (fun x => k))
  (at level 10, x name, r at level 100, k at level 200).

(** ** Machine integers *)

Definition is_uint64 (v : Z) : Prop := 0 <= v < 2 ^ 64.
Definition is_byte (v : Z) : Prop := 0 <= v < 256.

(** [byte(v)]: the low eight bits. *)
Definition byte_of (v : Z) : Z := Z.land v 255.

(** [int(v)] for [v : uint64] on a 64-bit platform: the same bit pattern
    read as a signed number. *)
Definition int_of_uint64 (v : Z) : Z :=
  if v <? 2 ^ 63 then v else v - 2 ^ 64.

(** [a % b] on [uint64]; Go panics when [b] is zero. *)
Definition umod (a b : Z) : result Z :=
  if b =? 0 then Panic DivideByZero else Ok (a mod b).

(** [s[i]] on a slice. *)
Definition index {A : Type} (s : list A) (i : Z) : result A :=
  if i <? 0 then Panic IndexOutOfRange
  else match s !! Z.to_nat i with
       | Some x => Ok x
       | None => Panic IndexOutOfRange
       end.

(** [s[n:]] on a slice. *)
Definition slice_from {A : Type} (s : list A) (n : nat) : result (list A) :=
  if (length s <? n)%nat then Panic SliceBoundsOutOfRange else Ok (skipn n s).

(** ** encoding/binary, little endian *)

(** [binary.LittleEndian.PutUint64]. *)
Definition PutUint64 (v : Z) : list Z :=
  [ byte_of v;
    byte_of (Z.shiftr v 8);
    byte_of (Z.shiftr v 16);
    byte_of (Z.shiftr v 24);
    byte_of (Z.shiftr v 32);
    byte_of (Z.shiftr v 40);
    byte_of (Z.shiftr v 48);
    byte_of (Z.shiftr v 56) ].

(** [binary.LittleEndian.Uint64] on the first eight bytes of [b]. *)
Definition Uint64 (b : list Z) : Z :=
  match b with
  | b0 :: b1 :: b2 :: b3 :: b4 :: b5 :: b6 :: b7 :: _ =>
      Z.lor b0
        (Z.lor (Z.shiftl b1 8)
           (Z.lor (Z.shiftl b2 16)
              (Z.lor (Z.shiftl b3 24)
                 (Z.lor (Z.shiftl b4 32)
                    (Z.lor (Z.shiftl b5 40)
                       (Z.lor (Z.shiftl b6 48) (Z.shiftl b7 56)))))))
  | _ => 0
  end.

(** [binary.Read(reader, binary.LittleEndian, &x)] for [x : uint64], with the
    returned error dropped as the callers in [bloom.go] do.  The reader is
    the list of bytes not yet consumed.  With eight bytes left the value is
    decoded and the reader advances; with fewer, [io.ReadFull] drains the
    reader, reports an error and [x] keeps the value [old] it had. *)
Definition binary_Read_uint64 (reader : list Z) (old : Z) : Z * list Z :=
  if (8 <=? length reader)%nat
  then (Uint64 (firstn 8 reader), skipn 8 reader)
  else (old, []).

(** [binary.Write(buf, binary.LittleEndian, v)] for [v : uint64] appends the
    eight bytes of [v]; a [bytes.Buffer] is the list written so far. *)
Definition binary_Write_uint64 (buf : list Z) (v : Z) : list Z :=
  buf ++ PutUint64 v.

(** ** The bit array *)

Module Bitmap.

(** Modelled from the spec: the package [ds/bitmap] of this repository,
    whose source lies outside the files embedded here.  Sections 3 and 4.1
    of the specification give it: a capacity fixed at construction, a storage of fixed-width
    words, word index [i / width] and bit offset [i mod width], an index
    valid iff [0 <= i < capacity], out-of-range access a fatal contract
    violation, export of the storage words as bytes and import from bytes
    with the capacity [8 * len(bytes)].  The storage word is the byte, the
    unit in which [bloom.go] passes the storage ([[]byte]), so that the
    little-endian export is the storage itself. *)
Record t : Type := mk { size : Z; data : list Z }.

(** Modelled from the spec: [new(capacity)] allocates storage for
    [capacity] bits, all zero; the storage length is
    [ceil(capacity / width)]. *)
Definition New (capacity : Z) : t :=
  {| size := capacity;
     data := repeat 0 (Z.to_nat ((capacity + 7) / 8)) |}.

(** Modelled from the spec: [import_bytes(bytes)] rebuilds the storage
    from exported bytes; no capacity is passed by [bloom.go], so it is the
    implicit [len(bytes) * 8]. *)
Definition NewFromData (bytes : list Z) : t :=
  {| size := 8 * Z.of_nat (length bytes); data := bytes |}.

Definition in_range (b : t) (i : Z) : bool :=
  (0 <=? i) && (i <? size b).

(** Modelled from the spec: [set(index)] sets bit [index] to 1; an index
    at or beyond the capacity is a fatal bounds error. *)
Definition Set_ (b : t) (i : Z) : result t :=
  if in_range b i then
    let? w := index (data b) (i / 8) in
    Ok {| size := size b;
          data := <[Z.to_nat (i / 8) := Z.lor w (Z.shiftl 1 (i mod 8))]> (data b) |}
  else Panic BitBounds.

(** Modelled from the spec: [is_set(index)] tells whether bit [index] is
    1, with the bounds contract of [set]. *)
Definition IsSet (b : t) (i : Z) : result bool :=
  if in_range b i then
    let? w := index (data b) (i / 8) in
    Ok (negb (Z.land w (Z.shiftl 1 (i mod 8)) =? 0))
  else Panic BitBounds.

(** Modelled from the spec: [export_bytes()] is the storage, byte by
    byte. *)
Definition Data (b : t) : list Z := data b.

(** The storage holds every bit below the capacity. *)
Definition wf (b : t) : Prop :=
  0 <= size b <= 8 * Z.of_nat (length (data b)).

(** Bit [i] reads as one. *)
Definition bit (b : t) (i : Z) : Prop := IsSet b i = Ok true.

(** Same shape, and every bit of [b1] is a bit of [b2]. *)
Definition included (b1 b2 : t) : Prop :=
  size b1 = size b2 /\
  length (data b1) = length (data b2) /\
  forall i, bit b1 i -> bit b2 i.

End Bitmap.

(** ** The filter *)

(** [const Salt]. *)
Definition Salt : string := "g9hmj2fhgr".

(** [[]byte(s)]: a Go string is its bytes. *)
Definition bytes_of_string (s : string) : list Z :=
  List.map (fun a => Z.of_N (N_of_ascii a)) (list_ascii_of_string s).

(** [type BloomFilter struct]; the locker carries no data. *)
Record BloomFilter : Type := mkBloomFilter {
  m : Z;
  k : Z;
  b : Bitmap.t
}.

(** [func New(m, k uint64, opts ...Options) *BloomFilter]. *)
Definition New (m k : Z) : BloomFilter :=
  {| m := m; k := k; b := Bitmap.New m |}.

(** [func NewFromData(data []byte, opts ...Options) *BloomFilter]: the two
    reads leave [m] and [k] at zero when they fail, then [data[8+8:]]
    panics on fewer than sixteen bytes. *)
Definition NewFromData (data : list Z) : result BloomFilter :=
  let reader := data in
  let '(m, reader) := binary_Read_uint64 reader 0 in
  let '(k, reader) := binary_Read_uint64 reader 0 in
  let? rest := slice_from data (8 + 8) in
  Ok {| m := m; k := k; b := Bitmap.NewFromData rest |}.

(** [func (bf *BloomFilter) Data() []byte]. *)
Definition Data (bf : BloomFilter) : list Z :=
  let buf := [] in
  let buf := binary_Write_uint64 buf (m bf) in
  let buf := binary_Write_uint64 buf (k bf) in
  buf ++ Bitmap.Data (b bf).

(** The layout of an export: sixteen bytes of header, then the storage of
    a bit array of [m] bits, [ceil(m / 8)] bytes. *)
Definition layout_ok (data : list Z) : bool :=
  (16 <=? length data)%nat &&
  (Z.of_nat (length data) - 16 =? (Uint64 data + 7) / 8).

(** The bit array of a filter serves its [m] bits: either it came from
    bytes, with the capacity of those bytes, or it holds at least [m] bits
    in a storage that is long enough. *)
Definition fits (bf : BloomFilter) : Prop :=
  Bitmap.size (b bf) = 8 * Z.of_nat (length (Bitmap.data (b bf))) \/
  (m bf <= Bitmap.size (b bf) /\ Bitmap.wf (b bf)).

Section Estimates.

(** [EstimateParameters(n uint64, p float64) (m uint64, k uint64)] computes
    in floating point; it is taken as it comes. *)
Variable float64 : Type.
Variable EstimateParameters : Z -> float64 -> Z * Z.

(** [func NewWithEstimates(n uint64, fp float64) *BloomFilter]. *)
Definition NewWithEstimates (n : Z) (fp : float64) : BloomFilter :=
  let '(m, k) := EstimateParameters n fp in
  New m k.

End Estimates.

Section Allocation.

(** Modelled from the spec: [new(capacity)] of the bit array fails only on
    allocation failure, which is fatal.  [allocates c] tells whether the
    storage for [c] bits is obtained. *)
Variable allocates : Z -> bool.

(** [New] together with the one way in which it can fail to return: [None]
    when the bit array is not allocated.  [New] itself tests neither [m]
    nor [k]. *)
Definition New_outcome (m k : Z) : option BloomFilter :=
  if allocates m then Some (New m k) else None.

End Allocation.

Section Hashing.

(** [hash.GenHashInts(data []byte, n int) []uint64] of the package
    [algorithm/hash], whose source lies outside the files embedded here: any
    function of the bytes and the count. *)
Variable GenHashInts : list Z -> Z -> list Z.

(** The hashes of a value as [Add] and [Contains] ask for them. *)
Definition hashes_of (bf : BloomFilter) (val : string) : list Z :=
  GenHashInts (bytes_of_string (Salt ++ val)%string) (int_of_uint64 (k bf)).

(** The loop of [Add], [for i := uint64(0); i < bf.k; i++], with [n] the
    iterations left: [bf.b.Set(hashs[i] % bf.m)]. *)
Fixpoint add_loop (n : nat) (i m : Z) (hashs : list Z) (b : Bitmap.t)
  : result Bitmap.t :=
  match n with
  | O => Ok b
  | S n' =>
      let? h := index hashs i in
      let? r := umod h m in
      let? b' := Bitmap.Set_ b r in
      add_loop n' (i + 1) m hashs b'
  end.

(** [func (bf *BloomFilter) Add(val string)]. *)
Definition Add (bf : BloomFilter) (val : string) : result BloomFilter :=
  let hashs := hashes_of bf val in
  let? b' := add_loop (Z.to_nat (k bf)) 0 (m bf) hashs (b bf) in
  Ok {| m := m bf; k := k bf; b := b' |}.

(** The loop of [Contains]: [false] at the first bit that is not set. *)
Fixpoint contains_loop (n : nat) (i m : Z) (hashs : list Z) (b : Bitmap.t)
  : result bool :=
  match n with
  | O => Ok true
  | S n' =>
      let? h := index hashs i in
      let? r := umod h m in
      let? s := Bitmap.IsSet b r in
      if negb s then Ok false
      else contains_loop n' (i + 1) m hashs b
  end.

(** [func (bf *BloomFilter) Contains(val string) bool]. *)
Definition Contains (bf : BloomFilter) (val : string) : result bool :=
  let hashs := hashes_of bf val in
  contains_loop (Z.to_nat (k bf)) 0 (m bf) hashs (b bf).

(** A call on the filter, and a sequence of calls run one after the other
    on the same filter; the results of [Contains] and [Data] are dropped,
    a panic ends the run. *)
Inductive op : Type :=
| OpAdd (val : string)
| OpContains (val : string)
| OpData.

Definition step (bf : BloomFilter) (o : op) : result BloomFilter :=
  match o with
  | OpAdd v => Add bf v
  | OpContains v => let? _r := Contains bf v in Ok bf
  | OpData => let _d := Data bf in Ok bf
  end.

Fixpoint run (ops : list op) (bf : BloomFilter) : result BloomFilter :=
  match ops with
  | [] => Ok bf
  | o :: ops' => let? bf' := step bf o in run ops' bf'
  end.

(** The hash function returns as many values as a filter with [k] rounds
    asks for. *)
Definition hash_delivers (k : Z) : Prop :=
  forall data, length (GenHashInts data (int_of_uint64 k)) = Z.to_nat k.

(** The bits of the rounds [i], ..., [i + n - 1] are all set. *)
Definition covered (hashs : list Z) (m : Z) (b : Bitmap.t) (i : Z) (n : nat)
  : Prop :=
  forall j, i <= j < i + Z.of_nat n ->
    exists h, hashs !! Z.to_nat j = Some h /\ m <> 0 /\ Bitmap.bit b (h mod m).

(** Bit [r] is one of the bits of [val]: the reduction modulo [m] of one of
    the [k] hashes that [Add] and [Contains] go through. *)
Definition hits (bf : BloomFilter) (val : string) (r : Z) : Prop :=
  exists i h,
    0 <= i < k bf /\ hashes_of bf val !! Z.to_nat i = Some h /\ r = h mod m bf.

(** The values that a sequence of calls adds, in order. *)
Fixpoint added (ops : list op) : list string :=
  match ops with
  | [] => []
  | OpAdd v :: ops' => v :: added ops'
  | _ :: ops' => added ops'
  end.

(** The filters a program can hold: built by [New] from two [uint64], by
    [NewFromData] from bytes, and changed by [Add] only. *)
Inductive reachable : BloomFilter -> Prop :=
| reach_New (m0 k0 : Z) :
    is_uint64 m0 -> is_uint64 k0 -> reachable (New m0 k0)
| reach_NewFromData (data : list Z) (bf : BloomFilter) :
    Forall is_byte data -> NewFromData data = Ok bf -> reachable bf
| reach_Add (bf : BloomFilter) (val : string) (bf' : BloomFilter) :
    reachable bf -> Add bf val = Ok bf' -> reachable bf'.

(** A filter on which every call returns: the hash function delivers its
    [k] values and, when there is a round to run, the reduced hashes fall
    inside the bit array. *)
Definition sound (bf : BloomFilter) : Prop :=
  hash_delivers (k bf) /\
  (1 <= k bf -> 1 <= m bf <= Bitmap.size (b bf) /\ Bitmap.wf (b bf)).

End Hashing.

(** ** A hash function for the examples *)

(** [n] values computed from the sum of the bytes; it stands in for
    [hash.GenHashInts] where a filter is run on concrete values. *)
Definition sample_hash (data : list Z) (n : Z) : list Z :=
  List.map (fun i => (fold_right Z.add 0 data + 1) * (2 * Z.of_nat i + 3))
    (seq 0 (Z.to_nat n)).

(** * Properties *)

(** ** The result monad *)

Lemma bind_Ok_inv {A B : Type} (r : result A) (f : A -> result B) (y : B) :
  bind r f = Ok y -> exists x, r = Ok x /\ f x = Ok y.
Proof.
  destruct r as [x|p]; simpl; intros H; [eauto | discriminate].
Qed.

Lemma index_Ok {A : Type} (s : list A) (i : Z) (x : A) :
  index s i = Ok x <-> 0 <= i /\ s !! Z.to_nat i = Some x.
Proof.
  unfold index. destruct (Z.ltb_spec i 0) as [Hneg|Hpos].
  - split; [discriminate | lia].
  - destruct (s !! Z.to_nat i) as [y|] eqn:E.
    + split.
      * intros H. injection H as ->. auto.
      * intros [_ H]. congruence.
    + split; [discriminate|]. intros [_ H]. discriminate.
Qed.

Lemma index_in_range {A : Type} (s : list A) (i : Z) :
  0 <= i < Z.of_nat (length s) -> exists x, index s i = Ok x.
Proof.
  intros Hi. destruct (lookup_lt_is_Some_2 s (Z.to_nat i)) as [x Hx]; [lia|].
  exists x. apply index_Ok. split; [lia | exact Hx].
Qed.

Lemma umod_Ok (a b r : Z) : umod a b = Ok r <-> b <> 0 /\ r = a mod b.
Proof.
  unfold umod. destruct (Z.eqb_spec b 0) as [E|E].
  - split; [discriminate | tauto].
  - split.
    + intros H. injection H as <-. auto.
    + intros [_ ->]. reflexivity.
Qed.

(** ** Bits of a byte *)

Lemma mask_test (w j : Z) :
  0 <= j -> negb (Z.land w (Z.shiftl 1 j) =? 0) = Z.testbit w j.
Proof.
  intros Hj. rewrite Z.shiftl_1_l.
  destruct (Z.testbit w j) eqn:E.
  - destruct (Z.eqb_spec (Z.land w (2 ^ j)) 0) as [H0|]; [|reflexivity].
    exfalso. assert (Hb : Z.testbit (Z.land w (2 ^ j)) j = true).
    { rewrite Z.land_spec, E, Z.pow2_bits_true; auto. }
    rewrite H0, Z.bits_0 in Hb. discriminate.
  - assert (H0 : Z.land w (2 ^ j) = 0).
    { apply Z.bits_inj'. intros n Hn.
      rewrite Z.land_spec, Z.bits_0, Z.pow2_bits_eqb by lia.
      destruct (Z.eqb_spec j n) as [->|]; [rewrite E|]; auto using andb_false_r. }
    rewrite H0. reflexivity.
Qed.

Lemma mask_set_same (w j : Z) :
  0 <= j -> Z.testbit (Z.lor w (Z.shiftl 1 j)) j = true.
Proof.
  intros Hj. rewrite Z.lor_spec, Z.shiftl_1_l, Z.pow2_bits_true by lia.
  apply orb_true_r.
Qed.

Lemma mask_set_keeps (w i j : Z) :
  Z.testbit w j = true -> Z.testbit (Z.lor w (Z.shiftl 1 i)) j = true.
Proof.
  intros H. rewrite Z.lor_spec, H. reflexivity.
Qed.

(** ** The bit array *)

Module BitmapFacts.
Import Bitmap.

Lemma included_refl b : included b b.
Proof. repeat split; auto. Qed.

Lemma included_trans b1 b2 b3 : included b1 b2 -> included b2 b3 -> included b1 b3.
Proof.
  intros (S1 & L1 & B1) (S2 & L2 & B2). repeat split; try congruence; auto.
Qed.

Lemma included_wf b1 b2 : included b1 b2 -> wf b1 -> wf b2.
Proof. intros (S1 & L1 & _). unfold wf. rewrite <- S1, <- L1. auto. Qed.

Lemma New_wf (capacity : Z) : 0 <= capacity -> wf (New capacity).
Proof.
  intros H. unfold wf, New; simpl. rewrite repeat_length.
  rewrite Z2Nat.id by (apply Z.div_pos; lia).
  pose proof (Z.div_mod (capacity + 7) 8 ltac:(lia)).
  pose proof (Z.mod_pos_bound (capacity + 7) 8 ltac:(lia)). lia.
Qed.

Lemma NewFromData_wf (bytes : list Z) : wf (NewFromData bytes).
Proof. unfold wf, NewFromData; simpl. lia. Qed.

Lemma in_range_spec b i : in_range b i = true <-> 0 <= i < size b.
Proof. unfold in_range. rewrite andb_true_iff, Z.leb_le, Z.ltb_lt. tauto. Qed.

Lemma IsSet_Ok b i s :
  IsSet b i = Ok s <->
  0 <= i < size b /\
  exists w, data b !! Z.to_nat (i / 8) = Some w /\ s = Z.testbit w (i mod 8).
Proof.
  unfold IsSet. destruct (in_range b i) eqn:E.
  - apply in_range_spec in E. split.
    + intros H. apply bind_Ok_inv in H as (w & Hw & Hs).
      apply index_Ok in Hw as [_ Hw]. injection Hs as <-.
      split; [exact E|]. exists w. split; [exact Hw|].
      apply mask_test. apply Z.mod_pos_bound. lia.
    + intros (_ & w & Hw & ->).
      assert (Hi : index (data b) (i / 8) = Ok w).
      { apply index_Ok. split; [apply Z.div_pos; lia | exact Hw]. }
      rewrite Hi. simpl. f_equal. apply mask_test. apply Z.mod_pos_bound. lia.
  - split; [discriminate|]. intros [H _]. apply in_range_spec in H. congruence.
Qed.

Lemma Set_Ok b i b' :
  Set_ b i = Ok b' <->
  0 <= i < size b /\
  exists w, data b !! Z.to_nat (i / 8) = Some w /\
    b' = {| size := size b;
            data := <[Z.to_nat (i / 8) := Z.lor w (Z.shiftl 1 (i mod 8))]> (data b) |}.
Proof.
  unfold Set_. destruct (in_range b i) eqn:E.
  - apply in_range_spec in E. split.
    + intros H. apply bind_Ok_inv in H as (w & Hw & Hs).
      apply index_Ok in Hw as [_ Hw]. injection Hs as <-. eauto.
    + intros (_ & w & Hw & ->).
      assert (Hi : index (data b) (i / 8) = Ok w).
      { apply index_Ok. split; [apply Z.div_pos; lia | exact Hw]. }
      rewrite Hi. reflexivity.
  - split; [discriminate|]. intros [H _]. apply in_range_spec in H. congruence.
Qed.

(** Within the capacity of a well-formed array [set] succeeds. *)
Lemma Set_total b i :
  wf b -> 0 <= i < size b -> exists b', Set_ b i = Ok b'.
Proof.
  intros Hwf Hi.
  destruct (lookup_lt_is_Some_2 (data b) (Z.to_nat (i / 8))) as [w Hw].
  { unfold wf in Hwf.
    assert (i / 8 < Z.of_nat (length (data b))).
    { apply Z.div_lt_upper_bound; lia. }
    assert (0 <= i / 8) by (apply Z.div_pos; lia). lia. }
  eexists. apply Set_Ok. eauto.
Qed.

(** The bit that was set reads as one. *)
Lemma Set_bit b i b' : Set_ b i = Ok b' -> bit b' i.
Proof.
  intros H. apply Set_Ok in H as (Hi & w & Hw & ->).
  apply IsSet_Ok; simpl. split; [exact Hi|].
  eexists. split.
  - apply list_lookup_insert_eq. eapply lookup_lt_Some; eauto.
  - symmetry. apply mask_set_same. apply Z.mod_pos_bound. lia.
Qed.

(** No bit is cleared by [set], and the shape stays. *)
Lemma Set_included b i b' : Set_ b i = Ok b' -> included b b'.
Proof.
  intros H. apply Set_Ok in H as (Hi & w & Hw & ->).
  repeat split; simpl.
  - symmetry. apply length_insert.
  - intros j Hj. apply IsSet_Ok in Hj as (Hjr & w' & Hw' & Hb).
    apply IsSet_Ok; simpl. split; [exact Hjr|].
    destruct (Nat.eq_dec (Z.to_nat (i / 8)) (Z.to_nat (j / 8))) as [E|E].
    + rewrite <- E in *. assert (w' = w) by congruence. subst w'.
      eexists. split.
      * apply list_lookup_insert_eq. eapply lookup_lt_Some; eauto.
      * symmetry. apply mask_set_keeps. auto.
    + exists w'. split; [|exact Hb].
      rewrite list_lookup_insert_ne; auto.
Qed.

End BitmapFacts.

(** ** The loops of [Add] and [Contains] *)

Section Filter.

Variable GenHashInts : list Z -> Z -> list Z.

Import BitmapFacts.

Local Abbreviation Add := (Add GenHashInts).
Local Abbreviation Contains := (Contains GenHashInts).
Local Abbreviation hashes_of := (hashes_of GenHashInts).
Local Abbreviation step := (step GenHashInts).
Local Abbreviation run := (run GenHashInts).
Local Abbreviation hash_delivers := (hash_delivers GenHashInts).
Local Abbreviation sound := (sound GenHashInts).

Lemma covered_le hashs m b b' i n :
  Bitmap.included b b' -> covered hashs m b i n -> covered hashs m b' i n.
Proof.
  intros (_ & _ & Hb) Hc j Hj. destruct (Hc j Hj) as (h & ? & ? & ?).
  exists h. auto.
Qed.

Lemma covered_S hashs m b i n :
  0 <= i ->
  covered hashs m b i (S n) <->
  (exists h, hashs !! Z.to_nat i = Some h /\ m <> 0 /\ Bitmap.bit b (h mod m)) /\
  covered hashs m b (i + 1) n.
Proof.
  intros Hi. unfold covered. split.
  - intros H. split; [apply H; lia|]. intros j Hj. apply H. lia.
  - intros [H0 H] j Hj. destruct (Z.eq_dec j i) as [->|Hne]; [exact H0|].
    apply H. lia.
Qed.

Lemma contains_loop_true hashs m b n : forall i,
  0 <= i ->
  (contains_loop n i m hashs b = Ok true <-> covered hashs m b i n).
Proof.
  induction n as [|n IH]; intros i Hi.
  - simpl. split; [|reflexivity]. intros _ j Hj. lia.
  - rewrite covered_S by exact Hi. simpl. split.
    + intros H.
      apply bind_Ok_inv in H as (h & Hh & H).
      apply bind_Ok_inv in H as (r & Hr & H).
      apply bind_Ok_inv in H as (s & Hs & H).
      apply index_Ok in Hh as [_ Hh]. apply umod_Ok in Hr as [Hm ->].
      destruct s; simpl in H; [|discriminate].
      split; [exists h; auto|]. apply IH; [lia | exact H].
    + intros [(h & Hh & Hm & Hb) Hc].
      assert (E1 : index hashs i = Ok h) by (apply index_Ok; auto).
      assert (E2 : umod h m = Ok (h mod m)) by (apply umod_Ok; auto).
      rewrite E1; simpl. rewrite E2; simpl. rewrite Hb; simpl.
      apply IH; [lia | exact Hc].
Qed.

(** [Contains] reads bits at reduced hashes only: two bit arrays that
    agree there give the same answer, panics included. *)
Lemma contains_loop_ext hashs m b1 b2 n : forall i,
  (forall h, m <> 0 -> Bitmap.IsSet b1 (h mod m) = Bitmap.IsSet b2 (h mod m)) ->
  contains_loop n i m hashs b1 = contains_loop n i m hashs b2.
Proof.
  induction n as [|n IH]; intros i Hag; [reflexivity|]. simpl.
  destruct (index hashs i) as [h|p]; simpl; [|reflexivity].
  destruct (umod h m) as [r|p] eqn:Er; simpl; [|reflexivity].
  apply umod_Ok in Er as [Hm ->]. rewrite (Hag h Hm).
  destruct (Bitmap.IsSet b2 (h mod m)) as [s|p]; simpl; [|reflexivity].
  destruct s; simpl; [apply IH; exact Hag | reflexivity].
Qed.

Lemma add_loop_le hashs m n : forall i b b',
  add_loop n i m hashs b = Ok b' -> Bitmap.included b b'.
Proof.
  induction n as [|n IH]; intros i b b' H; simpl in H.
  - injection H as <-. apply included_refl.
  - apply bind_Ok_inv in H as (h & Hh & H).
    apply bind_Ok_inv in H as (r & Hr & H).
    apply bind_Ok_inv in H as (b1 & Hs & H).
    eapply included_trans; [eapply Set_included; eauto | eapply IH; eauto].
Qed.

Lemma add_loop_covered hashs m n : forall i b b',
  0 <= i -> add_loop n i m hashs b = Ok b' -> covered hashs m b' i n.
Proof.
  induction n as [|n IH]; intros i b b' Hi H.
  - intros j Hj. lia.
  - simpl in H.
    apply bind_Ok_inv in H as (h & Hh & H).
    apply bind_Ok_inv in H as (r & Hr & H).
    apply bind_Ok_inv in H as (b1 & Hs & H).
    apply index_Ok in Hh as [_ Hh]. apply umod_Ok in Hr as [Hm ->].
    apply covered_S; [exact Hi|]. split.
    + exists h. repeat split; auto.
      destruct (add_loop_le _ _ _ _ _ _ H) as (_ & _ & Hb).
      apply Hb. eapply Set_bit; eauto.
    + eapply IH; [lia | exact H].
Qed.

Lemma add_loop_total hashs m n : forall i b,
  Bitmap.wf b -> 1 <= m <= Bitmap.size b -> 0 <= i ->
  i + Z.of_nat n <= Z.of_nat (length hashs) ->
  exists b', add_loop n i m hashs b = Ok b'.
Proof.
  induction n as [|n IH]; intros i b Hwf Hm Hi Hlen; simpl; [eauto|].
  destruct (index_in_range hashs i) as [h Hh]; [lia|].
  rewrite Hh; simpl. unfold umod.
  destruct (Z.eqb_spec m 0) as [|_]; [lia|]. simpl.
  pose proof (Z.mod_pos_bound h m ltac:(lia)) as Hr.
  destruct (Set_total b (h mod m) Hwf ltac:(lia)) as [b1 Hb1].
  rewrite Hb1; simpl.
  pose proof (Set_included _ _ _ Hb1) as Hle.
  apply IH; [eapply included_wf; eauto | | lia | lia].
  destruct Hle as (<- & _). exact Hm.
Qed.

Lemma contains_loop_total hashs m b n : forall i,
  Bitmap.wf b -> 1 <= m <= Bitmap.size b -> 0 <= i ->
  i + Z.of_nat n <= Z.of_nat (length hashs) ->
  exists r, contains_loop n i m hashs b = Ok r.
Proof.
  induction n as [|n IH]; intros i Hwf Hm Hi Hlen; simpl; [eauto|].
  destruct (index_in_range hashs i) as [h Hh]; [lia|].
  rewrite Hh; simpl. unfold umod.
  destruct (Z.eqb_spec m 0) as [|_]; [lia|]. simpl.
  pose proof (Z.mod_pos_bound h m ltac:(lia)) as Hr.
  destruct (Set_total b (h mod m) Hwf ltac:(lia)) as [b1 Hb1].
  apply Set_Ok in Hb1 as (Hin & w & Hw & _).
  assert (Hs : Bitmap.IsSet b (h mod m) = Ok (Z.testbit w ((h mod m) mod 8))).
  { apply IsSet_Ok. eauto. }
  rewrite Hs; simpl.
  destruct (Z.testbit w ((h mod m) mod 8)); simpl; [|eauto].
  apply IH; auto; lia.
Qed.

(** ** [Add], [Contains] and runs of calls *)

Lemma Contains_true bf v :
  Contains bf v = Ok true <->
  covered (hashes_of bf v) (m bf) (b bf) 0 (Z.to_nat (k bf)).
Proof. unfold Contains. apply contains_loop_true. lia. Qed.

Lemma Add_Ok bf v bf' :
  Add bf v = Ok bf' ->
  m bf' = m bf /\ k bf' = k bf /\ Bitmap.included (b bf) (b bf') /\
  covered (hashes_of bf v) (m bf) (b bf') 0 (Z.to_nat (k bf)).
Proof.
  unfold Add. intros H. apply bind_Ok_inv in H as (b1 & Hl & H).
  injection H as <-; simpl. do 2 (split; [reflexivity|]). split.
  - eapply add_loop_le; eauto.
  - eapply add_loop_covered; [lia | eauto].
Qed.

Lemma Add_Contains bf v bf' : Add bf v = Ok bf' -> Contains bf' v = Ok true.
Proof.
  intros H. apply Add_Ok in H as (Hm & Hk & _ & Hc).
  apply Contains_true. unfold hashes_of in *.
  rewrite Hm, Hk. exact Hc.
Qed.

Lemma step_Ok bf o bf' :
  step bf o = Ok bf' ->
  m bf' = m bf /\ k bf' = k bf /\ Bitmap.included (b bf) (b bf').
Proof.
  destruct o as [v|v|]; simpl; intros H.
  - apply Add_Ok in H. tauto.
  - apply bind_Ok_inv in H as (r & _ & H). injection H as <-.
    auto using included_refl.
  - injection H as <-. auto using included_refl.
Qed.

Lemma run_Ok ops : forall bf bf',
  run ops bf = Ok bf' ->
  m bf' = m bf /\ k bf' = k bf /\ Bitmap.included (b bf) (b bf').
Proof.
  induction ops as [|o ops IH]; simpl; intros bf bf' H.
  - injection H as <-. auto using included_refl.
  - apply bind_Ok_inv in H as (bf1 & H1 & H).
    apply step_Ok in H1 as (Hm1 & Hk1 & Hi1).
    apply IH in H as (Hm & Hk & Hi).
    do 2 (split; [congruence|]). eapply included_trans; eauto.
Qed.

Lemma run_app ops1 ops2 bf :
  run (ops1 ++ ops2) bf = bind (run ops1 bf) (run ops2).
Proof.
  revert bf. induction ops1 as [|o ops1 IH]; intros bf; simpl; [reflexivity|].
  destruct (step bf o) as [bf1|p]; simpl; [apply IH | reflexivity].
Qed.

(** What [Contains] has answered [true] stays [true] on a filter with the
    same parameters and at least the same bits. *)
Lemma Contains_included bf bf' v :
  m bf' = m bf -> k bf' = k bf -> Bitmap.included (b bf) (b bf') ->
  Contains bf v = Ok true -> Contains bf' v = Ok true.
Proof.
  intros Hm Hk Hi H. apply Contains_true in H. apply Contains_true.
  unfold hashes_of in *. rewrite Hm, Hk.
  eapply covered_le; eauto.
Qed.

Lemma hashes_length bf v :
  hash_delivers (k bf) -> length (hashes_of bf v) = Z.to_nat (k bf).
Proof. intros H. apply H. Qed.

Lemma Add_total bf v : sound bf -> exists bf', Add bf v = Ok bf'.
Proof.
  intros [Hd Hs]. unfold Add.
  destruct (Z.le_gt_cases 1 (k bf)) as [Hk|Hk].
  - destruct (Hs Hk) as [Hm Hwf].
    destruct (add_loop_total (hashes_of bf v) (m bf) (Z.to_nat (k bf)) 0 (b bf))
      as [b1 Hb1]; auto; [lia | rewrite hashes_length by exact Hd; lia |].
    rewrite Hb1. simpl. eauto.
  - replace (Z.to_nat (k bf)) with O by lia. simpl. eauto.
Qed.

Lemma Contains_total bf v : sound bf -> exists r, Contains bf v = Ok r.
Proof.
  intros [Hd Hs]. unfold Contains.
  destruct (Z.le_gt_cases 1 (k bf)) as [Hk|Hk].
  - destruct (Hs Hk) as [Hm Hwf].
    apply contains_loop_total; auto; [lia | rewrite hashes_length by exact Hd; lia].
  - replace (Z.to_nat (k bf)) with O by lia. simpl. eauto.
Qed.

Lemma sound_kept bf bf' :
  m bf' = m bf -> k bf' = k bf -> Bitmap.included (b bf) (b bf') ->
  sound bf -> sound bf'.
Proof.
  intros Hm Hk Hi [Hd Hs]. unfold sound. rewrite Hm, Hk.
  split; [exact Hd|]. intros H1. destruct (Hs H1) as [Hr Hwf].
  pose proof Hi as (<- & _). split; [exact Hr | eapply included_wf; eauto].
Qed.

Lemma step_total bf o : sound bf -> exists bf', step bf o = Ok bf'.
Proof.
  intros Hs. destruct o as [v|v|]; simpl.
  - apply Add_total; exact Hs.
  - destruct (Contains_total bf v Hs) as [r ->]. simpl. eauto.
  - eauto.
Qed.

Lemma run_total ops : forall bf, sound bf -> exists bf', run ops bf = Ok bf'.
Proof.
  induction ops as [|o ops IH]; intros bf Hs; simpl; [eauto|].
  destruct (step_total bf o Hs) as [bf1 H1]. rewrite H1; simpl.
  apply IH. apply step_Ok in H1 as (Hm & Hk & Hi). eapply sound_kept; eauto.
Qed.

Lemma New_sound m0 k0 :
  (1 <= k0 -> 1 <= m0) -> hash_delivers k0 -> sound (New m0 k0).
Proof.
  intros Hm Hd. split; [exact Hd|]. simpl. intros Hk. specialize (Hm Hk).
  split; [lia | apply New_wf; lia].
Qed.

(** ** No false negatives, monotonicity, degenerate parameters *)

(** C1. No false negatives: on a filter built by [New m k] with [m >= 1] and
    [k >= 1], whatever calls come before and after [Add v], the whole run
    returns and [Contains v] then answers [true].  The hash function is
    required to deliver the [k] values the filter asks for. *)
Theorem no_false_negatives (m0 k0 : Z) (before after : list op) (v : string) :
  1 <= m0 -> 1 <= k0 -> hash_delivers k0 ->
  exists bf,
    run (before ++ OpAdd v :: after) (New m0 k0) = Ok bf /\
    Contains bf v = Ok true.
Proof.
  intros Hm Hk Hd.
  assert (Hs0 : sound (New m0 k0)) by (apply New_sound; auto).
  destruct (run_total before _ Hs0) as [bf1 H1].
  assert (Hs1 : sound bf1).
  { apply run_Ok in H1 as (? & ? & ?). eapply sound_kept; eauto. }
  destruct (Add_total bf1 v Hs1) as [bf2 H2].
  assert (Hs2 : sound bf2).
  { apply Add_Ok in H2 as (? & ? & ? & _). eapply sound_kept; eauto. }
  destruct (run_total after _ Hs2) as [bf3 H3].
  exists bf3. split.
  - rewrite run_app, H1. simpl. rewrite H2. simpl. exact H3.
  - apply run_Ok in H3 as (? & ? & ?).
    eapply Contains_included; eauto. eapply Add_Contains; eauto.
Qed.

(** C8. Monotonicity of membership: once [Contains v] has answered [true],
    it answers [true] after every run of [Add], [Contains] and [Data] calls
    on the filter; and on a sound filter every such run returns. *)
Theorem membership_monotone (bf : BloomFilter) (v : string) (ops : list op) :
  Contains bf v = Ok true ->
  (forall bf', run ops bf = Ok bf' -> Contains bf' v = Ok true) /\
  (sound bf -> exists bf', run ops bf = Ok bf' /\ Contains bf' v = Ok true).
Proof.
  intros Hc.
  assert (Hm : forall bf', run ops bf = Ok bf' -> Contains bf' v = Ok true).
  { intros bf' Hr. apply run_Ok in Hr as (? & ? & ?).
    eapply Contains_included; eauto. }
  split; [exact Hm|]. intros Hs.
  destruct (run_total ops bf Hs) as [bf' Hr]. eauto.
Qed.

(** C9. A filter with [m = 0] is built without complaint, and with
    [k >= 1] every [Add] and every [Contains] on it panics on the
    reduction of the first hash modulo zero. *)
Theorem zero_bits_divide_by_zero (k0 : Z) (v : string) (b0 : Bitmap.t) :
  1 <= k0 -> hash_delivers k0 ->
  New 0 k0 = {| m := 0; k := k0; b := Bitmap.New 0 |} /\
  Add {| m := 0; k := k0; b := b0 |} v = Panic DivideByZero /\
  Contains {| m := 0; k := k0; b := b0 |} v = Panic DivideByZero.
Proof.
  intros Hk Hd. split; [reflexivity|].
  set (bf := {| m := 0; k := k0; b := b0 |}).
  pose proof (hashes_length bf v Hd) as Hl.
  destruct (index_in_range (hashes_of bf v) 0) as [h Hh];
    [rewrite Hl; simpl; lia|].
  unfold Add, Contains. fold bf.
  destruct (Z.to_nat (k bf)) as [|n] eqn:En; [simpl in En; lia|].
  simpl. rewrite Hh. simpl. split; reflexivity.
Qed.

Lemma run_zero_rounds ops : forall m0 b0,
  run ops {| m := m0; k := 0; b := b0 |} = Ok {| m := m0; k := 0; b := b0 |}.
Proof.
  induction ops as [|o ops IH]; intros m0 b0; simpl; [reflexivity|].
  destruct o as [w|w|]; simpl; apply IH.
Qed.

(** C10. A filter with [k = 0] is built without complaint; on it
    [Contains] answers [true] for every value, fresh or not, [Add] leaves
    the bit array as it was, and so does every run of calls. *)
Theorem zero_rounds_vacuous (m0 : Z) (v : string) (b0 : Bitmap.t) (ops : list op) :
  New m0 0 = {| m := m0; k := 0; b := Bitmap.New m0 |} /\
  Contains (New m0 0) v = Ok true /\
  Contains {| m := m0; k := 0; b := b0 |} v = Ok true /\
  Add {| m := m0; k := 0; b := b0 |} v = Ok {| m := m0; k := 0; b := b0 |} /\
  run ops {| m := m0; k := 0; b := b0 |} = Ok {| m := m0; k := 0; b := b0 |}.
Proof.
  repeat split; try reflexivity. apply run_zero_rounds.
Qed.

End Filter.

(** The sample hash function delivers. *)
Lemma sample_hash_delivers (k0 : Z) :
  0 <= k0 < 2 ^ 63 -> hash_delivers sample_hash k0.
Proof.
  intros Hk data. unfold sample_hash, int_of_uint64.
  destruct (Z.ltb_spec k0 (2 ^ 63)) as [_|]; [|lia].
  rewrite length_map, length_seq. reflexivity.
Qed.

Lemma no_false_negatives_witness :
  exists bf,
    run sample_hash ([OpAdd "x"; OpContains "y"] ++ OpAdd "gostl" :: [OpAdd "z"; OpData])
      (New 64 4) = Ok bf /\
    Contains sample_hash bf "gostl" = Ok true.
Proof.
  apply (no_false_negatives sample_hash 64 4); [lia | lia |].
  apply sample_hash_delivers. lia.
Defined.

Lemma membership_monotone_witness :
  let bf := {| m := 64; k := 4;
               b := {| Bitmap.size := 64;
                       Bitmap.data := [0; 0; 0; 0; 64; 68; 4; 0] |} |} in
  Add sample_hash (New 64 4) "gostl" = Ok bf /\
  Contains sample_hash bf "gostl" = Ok true /\
  exists bf',
    run sample_hash [OpAdd "x"; OpData; OpContains "gostl"] bf = Ok bf' /\
    Contains sample_hash bf' "gostl" = Ok true.
Proof.
  intros bf. split; [reflexivity|]. split; [reflexivity|].
  apply (membership_monotone sample_hash bf "gostl"); [reflexivity|].
  split; [apply sample_hash_delivers; simpl; lia|].
  intros _. unfold Bitmap.wf. simpl. lia.
Defined.

Lemma zero_bits_divide_by_zero_witness :
  Add sample_hash (New 0 3) "gostl" = Panic DivideByZero /\
  Contains sample_hash (New 0 3) "gostl" = Panic DivideByZero.
Proof.
  apply (zero_bits_divide_by_zero sample_hash 3 "gostl" (Bitmap.New 0));
    [lia | apply sample_hash_delivers; lia].
Defined.

(** ** Little-endian encoding *)

Lemma byte_of_shiftr (v c : Z) :
  0 <= c -> byte_of (Z.shiftr v c) = (v / 2 ^ c) mod 256.
Proof.
  intros Hc. unfold byte_of. rewrite Z.shiftr_div_pow2 by exact Hc.
  change 255 with (Z.ones 8). rewrite Z.land_ones by lia. reflexivity.
Qed.

Lemma byte_of_is_byte (v : Z) : is_byte (byte_of v).
Proof.
  unfold is_byte, byte_of. change 255 with (Z.ones 8).
  rewrite Z.land_ones by lia. apply Z.mod_pos_bound. lia.
Qed.

Lemma PutUint64_length (v : Z) : length (PutUint64 v) = 8%nat.
Proof. reflexivity. Qed.

Lemma PutUint64_bytes (v : Z) : Forall is_byte (PutUint64 v).
Proof. unfold PutUint64. repeat constructor; apply byte_of_is_byte. Qed.

(** Byte [i] of the encoding is digit [i] of [v] in base 256. *)
Lemma PutUint64_lookup (v : Z) (i : nat) :
  (i < 8)%nat -> PutUint64 v !! i = Some ((v / 2 ^ (8 * Z.of_nat i)) mod 256).
Proof.
  intros Hi. do 8 (destruct i as [|i]; [simpl; f_equal;
    first [ apply (byte_of_shiftr v 0); lia | apply byte_of_shiftr; lia ] |]).
  lia.
Qed.

Lemma testbit_above (v n : Z) : is_uint64 v -> 64 <= n -> Z.testbit v n = false.
Proof.
  intros [H0 H1] Hn. destruct (Z.eq_dec v 0) as [->|Hv]; [apply Z.bits_0|].
  apply Z.bits_above_log2; [exact H0|].
  assert (Z.log2 v < 64) by (apply Z.log2_lt_pow2; lia). lia.
Qed.

Lemma below_pow2_64 (x : Z) :
  0 <= x -> (forall n, 64 <= n -> Z.testbit x n = false) -> is_uint64 x.
Proof.
  intros H0 Hb. split; [exact H0|].
  destruct (Z.lt_ge_cases x (2 ^ 64)) as [|Hge]; [assumption|].
  assert (Hl : 64 <= Z.log2 x) by (apply Z.log2_le_pow2; lia).
  pose proof (Z.bit_log2 x ltac:(lia)) as Ht. rewrite (Hb _ Hl) in Ht.
  discriminate.
Qed.

(** The bits of the byte placed at offset [c]. *)
Lemma placed_byte_bits (w c n : Z) :
  0 <= c -> 0 <= n -> is_byte w ->
  Z.testbit (Z.shiftl w c) n = (c <=? n) && (n <? c + 8) && Z.testbit w (n - c).
Proof.
  intros Hc Hn Hw. rewrite Z.shiftl_spec by exact Hn.
  destruct (Z.leb_spec c n) as [Hle|Hlt]; simpl.
  - destruct (Z.ltb_spec n (c + 8)) as [Hl|Hg]; simpl; [reflexivity|].
    destruct (Z.eq_dec w 0) as [->|Hnz]; [apply Z.bits_0|].
    apply Z.bits_above_log2; [apply Hw|].
    assert (Z.log2 w < 8) by (apply Z.log2_lt_pow2; unfold is_byte in Hw; lia).
    lia.
  - apply Z.testbit_neg_r. lia.
Qed.

Ltac decide_cmp :=
  repeat match goal with
    | |- context [?a <=? ?b] =>
        first [ rewrite (proj2 (Z.leb_le a b)) by lia
              | rewrite (proj2 (Z.leb_gt a b)) by lia ]
    | |- context [?a <? ?b] =>
        first [ rewrite (proj2 (Z.ltb_lt a b)) by lia
              | rewrite (proj2 (Z.ltb_ge a b)) by lia ]
    end.

Lemma Uint64_bits (b0 b1 b2 b3 b4 b5 b6 b7 : Z) (rest : list Z) (n : Z) :
  Forall is_byte [b0; b1; b2; b3; b4; b5; b6; b7] -> 0 <= n ->
  Z.testbit (Uint64 (b0 :: b1 :: b2 :: b3 :: b4 :: b5 :: b6 :: b7 :: rest)) n =
  if n <? 8 then Z.testbit b0 n
  else if n <? 16 then Z.testbit b1 (n - 8)
  else if n <? 24 then Z.testbit b2 (n - 16)
  else if n <? 32 then Z.testbit b3 (n - 24)
  else if n <? 40 then Z.testbit b4 (n - 32)
  else if n <? 48 then Z.testbit b5 (n - 40)
  else if n <? 56 then Z.testbit b6 (n - 48)
  else if n <? 64 then Z.testbit b7 (n - 56)
  else false.
Proof.
  intros Hb Hn.
  repeat match goal with H : Forall _ (_ :: _) |- _ => inversion_clear H end.
  unfold Uint64. replace b0 with (Z.shiftl b0 0) at 1 by apply Z.shiftl_0_r.
  rewrite !Z.lor_spec, !placed_byte_bits by (assumption || lia).
  assert (Hcase : n < 8 \/ 8 <= n < 16 \/ 16 <= n < 24 \/ 24 <= n < 32 \/
                  32 <= n < 40 \/ 40 <= n < 48 \/ 48 <= n < 56 \/
                  56 <= n < 64 \/ 64 <= n) by lia.
  repeat destruct Hcase as [Hcase|Hcase]; decide_cmp; simpl;
    rewrite ?orb_false_r, ?Z.sub_0_r; reflexivity.
Qed.

Lemma byte_of_bits (v j : Z) :
  0 <= j < 8 -> Z.testbit (byte_of v) j = Z.testbit v j.
Proof.
  intros Hj. unfold byte_of. rewrite Z.land_spec. change 255 with (Z.ones 8).
  rewrite Z.ones_spec_low by lia. apply andb_true_r.
Qed.

(** Decoding undoes encoding. *)
Lemma Uint64_PutUint64 (v : Z) (rest : list Z) :
  is_uint64 v -> Uint64 (PutUint64 v ++ rest) = v.
Proof.
  intros Hv. apply Z.bits_inj'. intros n Hn.
  pose proof (PutUint64_bytes v) as Hb. unfold PutUint64 in *. simpl app.
  rewrite Uint64_bits by assumption.
  assert (Hcase : n < 8 \/ 8 <= n < 16 \/ 16 <= n < 24 \/ 24 <= n < 32 \/
                  32 <= n < 40 \/ 40 <= n < 48 \/ 48 <= n < 56 \/
                  56 <= n < 64 \/ 64 <= n) by lia.
  repeat destruct Hcase as [Hcase|Hcase]; decide_cmp;
    try (rewrite byte_of_bits by lia; rewrite ?Z.shiftr_spec by lia;
         f_equal; lia).
  symmetry. apply testbit_above; assumption.
Qed.

(** Eight bytes decode to a [uint64]. *)
Lemma Uint64_range (bs : list Z) : Forall is_byte bs -> is_uint64 (Uint64 bs).
Proof.
  intros Hb.
  destruct bs as [|b0 [|b1 [|b2 [|b3 [|b4 [|b5 [|b6 [|b7 bs]]]]]]]];
    try (unfold is_uint64; simpl; lia).
  repeat match goal with H : Forall _ (_ :: _) |- _ => inversion_clear H end.
  apply below_pow2_64.
  - unfold Uint64, is_byte in *.
    repeat (apply Z.lor_nonneg; split); try apply Z.shiftl_nonneg; lia.
  - intros n Hn. rewrite Uint64_bits; [decide_cmp; reflexivity | | lia].
    repeat (apply List.Forall_cons; [assumption|]). apply List.Forall_nil.
Qed.

(** ** Export and import *)

Lemma Uint64_firstn (l : list Z) :
  (8 <= length l)%nat -> Uint64 (firstn 8 l) = Uint64 l.
Proof.
  intros H.
  destruct l as [|b0 [|b1 [|b2 [|b3 [|b4 [|b5 [|b6 [|b7 l]]]]]]]];
    simpl in H; try lia. reflexivity.
Qed.

Lemma Data_eq (bf : BloomFilter) :
  Data bf = PutUint64 (m bf) ++ PutUint64 (k bf) ++ Bitmap.data (b bf).
Proof. reflexivity. Qed.

Lemma NewFromData_Ok (data : list Z) :
  (16 <= length data)%nat ->
  NewFromData data =
    Ok {| m := Uint64 data;
          k := Uint64 (skipn 8 data);
          b := Bitmap.NewFromData (skipn 16 data) |}.
Proof.
  intros H. unfold NewFromData, binary_Read_uint64, slice_from.
  destruct (Nat.leb_spec 8 (length data)) as [_|]; [|lia].
  destruct (Nat.leb_spec 8 (length (skipn 8 data))) as [_|Hs];
    [|rewrite length_skipn in Hs; lia].
  destruct (Nat.ltb_spec (length data) (8 + 8)) as [|_]; [lia|].
  simpl. rewrite !Uint64_firstn; [reflexivity | rewrite length_skipn; lia | lia].
Qed.

Lemma NewFromData_short (data : list Z) :
  (length data < 16)%nat -> NewFromData data = Panic SliceBoundsOutOfRange.
Proof.
  intros H. unfold NewFromData.
  destruct (binary_Read_uint64 data 0) as [m0 r1].
  destruct (binary_Read_uint64 r1 0) as [k0 r2].
  unfold slice_from. destruct (Nat.ltb_spec (length data) (8 + 8)) as [_|]; [|lia].
  reflexivity.
Qed.

Section RoundTrip.

Variable GenHashInts : list Z -> Z -> list Z.

Import BitmapFacts.

Lemma reachable_fits (bf : BloomFilter) :
  reachable GenHashInts bf -> is_uint64 (m bf) /\ is_uint64 (k bf) /\ fits bf.
Proof.
  induction 1 as [m0 k0 Hm Hk | data bf Hb Hn | bf v bf' _ IH Ha].
  - simpl. repeat split; try apply Hm; try apply Hk.
    right. simpl. split; [lia | apply New_wf; apply Hm].
  - destruct (le_lt_dec 16 (length data)) as [Hl|Hl].
    + rewrite NewFromData_Ok in Hn by exact Hl. injection Hn as <-. simpl.
      split; [apply Uint64_range; exact Hb|].
      split; [apply Uint64_range; apply Forall_drop; exact Hb|].
      left. reflexivity.
    + rewrite NewFromData_short in Hn by exact Hl. discriminate.
  - destruct IH as (Hm & Hk & Hf).
    apply Add_Ok in Ha as (Em & Ek & Hi & _). rewrite Em, Ek.
    split; [exact Hm|]. split; [exact Hk|].
    pose proof Hi as (Es & El & _). unfold fits. rewrite Em, <- Es, <- El.
    destruct Hf as [Hf|[Hf Hw]]; [left; exact Hf|].
    right. split; [exact Hf | eapply included_wf; eauto].
Qed.

Lemma NewFromData_Data (bf : BloomFilter) :
  is_uint64 (m bf) -> is_uint64 (k bf) ->
  NewFromData (Data bf) =
    Ok {| m := m bf; k := k bf; b := Bitmap.NewFromData (Bitmap.data (b bf)) |}.
Proof.
  intros Hm Hk. rewrite NewFromData_Ok
    by (rewrite Data_eq, !length_app, !PutUint64_length; lia).
  rewrite Data_eq.
  change (skipn 16 _) with (Bitmap.data (b bf)).
  change (skipn 8 (PutUint64 (m bf) ++ PutUint64 (k bf) ++ Bitmap.data (b bf)))
    with (PutUint64 (k bf) ++ Bitmap.data (b bf)).
  rewrite !Uint64_PutUint64 by assumption. reflexivity.
Qed.

Lemma roundtrip_fits (bf : BloomFilter) :
  is_uint64 (m bf) -> is_uint64 (k bf) -> fits bf ->
  exists bf',
    NewFromData (Data bf) = Ok bf' /\
    m bf' = m bf /\ k bf' = k bf /\
    forall v, Contains GenHashInts bf' v = Contains GenHashInts bf v.
Proof.
  intros Hm Hk Hf. eexists. split; [apply NewFromData_Data; assumption|].
  split; [reflexivity|]. split; [reflexivity|].
  intros v. unfold Contains, hashes_of. simpl.
  apply contains_loop_ext. intros h Hnz.
  destruct Hf as [Hf|[Hf Hw]].
  - destruct (b bf) as [sz dt]. simpl in Hf. subst sz. reflexivity.
  - pose proof (Z.mod_pos_bound h (m bf) ltac:(unfold is_uint64 in Hm; lia)) as Hr.
    unfold Bitmap.wf in Hw. unfold Bitmap.IsSet.
    rewrite !(proj2 (in_range_spec _ _)); [reflexivity | lia | simpl; lia].
Qed.

(** C2. Round trip: an exported filter is imported back with the same [m]
    and the same [k], and the imported filter gives to every [Contains] the
    answer of the original. *)
Theorem Data_NewFromData_roundtrip (bf : BloomFilter) :
  reachable GenHashInts bf ->
  exists bf',
    NewFromData (Data bf) = Ok bf' /\
    m bf' = m bf /\ k bf' = k bf /\
    forall v, Contains GenHashInts bf' v = Contains GenHashInts bf v.
Proof.
  intros Hr. apply reachable_fits in Hr as (Hm & Hk & Hf).
  apply roundtrip_fits; assumption.
Qed.

End RoundTrip.

Lemma Data_NewFromData_roundtrip_witness :
  let bf := {| m := 64; k := 4;
               b := {| Bitmap.size := 64;
                       Bitmap.data := [0; 0; 0; 0; 64; 68; 4; 0] |} |} in
  reachable sample_hash bf /\
  exists bf',
    NewFromData (Data bf) = Ok bf' /\
    m bf' = 64 /\ k bf' = 4 /\
    forall v, Contains sample_hash bf' v = Contains sample_hash bf v.
Proof.
  intros bf.
  assert (Hr : reachable sample_hash bf).
  { apply (reach_Add sample_hash (New 64 4) "gostl").
    - apply reach_New; unfold is_uint64; lia.
    - reflexivity. }
  split; [exact Hr|].
  exact (Data_NewFromData_roundtrip sample_hash bf Hr).
Defined.

(** C7. Export format: the bytes of [Data] at the offsets 0 to 7 are [m] in
    little-endian order, those at the offsets 8 to 15 are [k] in
    little-endian order, both decode back to the field, and the bytes from
    offset 16 on are the exported bytes of the bit array. *)
Theorem Data_format (bf : BloomFilter) :
  is_uint64 (m bf) -> is_uint64 (k bf) ->
  length (Data bf) = (16 + length (Bitmap.Data (b bf)))%nat /\
  (forall i, (i < 8)%nat ->
     Data bf !! i = Some ((m bf / 2 ^ (8 * Z.of_nat i)) mod 256)) /\
  (forall i, (i < 8)%nat ->
     Data bf !! (8 + i)%nat = Some ((k bf / 2 ^ (8 * Z.of_nat i)) mod 256)) /\
  Uint64 (firstn 8 (Data bf)) = m bf /\
  Uint64 (firstn 8 (skipn 8 (Data bf))) = k bf /\
  skipn 16 (Data bf) = Bitmap.Data (b bf).
Proof.
  intros Hm Hk.
  assert (Hl : forall rest, (8 <= length (PutUint64 (k bf) ++ rest))%nat).
  { intros rest. rewrite length_app, PutUint64_length. lia. }
  rewrite Data_eq.
  change (skipn 8 (PutUint64 (m bf) ++ PutUint64 (k bf) ++ Bitmap.data (b bf)))
    with (PutUint64 (k bf) ++ Bitmap.data (b bf)).
  change (skipn 16 (PutUint64 (m bf) ++ PutUint64 (k bf) ++ Bitmap.data (b bf)))
    with (Bitmap.data (b bf)).
  split; [rewrite !length_app, !PutUint64_length; reflexivity|].
  split.
  { intros i Hi. rewrite lookup_app_l by (rewrite PutUint64_length; exact Hi).
    apply PutUint64_lookup; exact Hi. }
  split.
  { intros i Hi.
    rewrite lookup_app_r by (rewrite PutUint64_length; lia).
    rewrite PutUint64_length.
    rewrite lookup_app_l by (rewrite PutUint64_length; lia).
    replace (8 + i - 8)%nat with i by lia. apply PutUint64_lookup; exact Hi. }
  split.
  { rewrite Uint64_firstn by (rewrite length_app, PutUint64_length; lia).
    apply Uint64_PutUint64; exact Hm. }
  split; [|reflexivity].
  rewrite Uint64_firstn by apply Hl. apply Uint64_PutUint64; exact Hk.
Qed.

Lemma Data_format_witness :
  Data (New 1000 3)
    = [232; 3; 0; 0; 0; 0; 0; 0; 3; 0; 0; 0; 0; 0; 0; 0]
      ++ Bitmap.Data (Bitmap.New 1000) /\
  Data (New 1000 3) !! 1%nat = Some ((1000 / 2 ^ 8) mod 256) /\
  Uint64 (firstn 8 (Data (New 1000 3))) = 1000.
Proof.
  destruct (Data_format (New 1000 3)) as (_ & Hm & _ & Hd & _);
    [simpl; unfold is_uint64; lia | simpl; unfold is_uint64; lia |].
  split; [reflexivity|]. split; [apply (Hm 1%nat); lia | exact Hd].
Defined.

(** C5, as the code has it: on sixteen bytes or more [NewFromData] keeps
    the parsed [m] in the field [m] and builds the bit array from the bytes
    after offset 16 alone; its capacity is eight times the number of those
    bytes, whatever [m] is. *)
Theorem NewFromData_capacity (data : list Z) :
  (16 <= length data)%nat ->
  exists bf,
    NewFromData data = Ok bf /\
    m bf = Uint64 data /\
    b bf = Bitmap.NewFromData (skipn 16 data) /\
    Bitmap.size (b bf) = 8 * (Z.of_nat (length data) - 16).
Proof.
  intros Hl. eexists. split; [apply NewFromData_Ok; exact Hl|]. simpl.
  rewrite length_skipn. split; [reflexivity|]. split; [reflexivity|]. lia.
Qed.

Lemma NewFromData_capacity_witness :
  exists bf,
    NewFromData (Data (New 5 1)) = Ok bf /\
    m bf = Uint64 (Data (New 5 1)) /\
    b bf = Bitmap.NewFromData (skipn 16 (Data (New 5 1))) /\
    Bitmap.size (b bf) = 8 * (Z.of_nat (length (Data (New 5 1))) - 16).
Proof.
  apply (NewFromData_capacity (Data (New 5 1))). simpl. lia.
Defined.

(** The export of a fresh filter of five bits is a well-formed input, and
    the bit array imported from it has capacity eight, not [m = 5]. *)
Lemma NewFromData_capacity_counterexample :
  layout_ok (Data (New 5 1)) = true /\
  exists bf,
    NewFromData (Data (New 5 1)) = Ok bf /\
    m bf = 5 /\ Bitmap.size (b bf) = 8 /\ Bitmap.size (b bf) <> m bf.
Proof.
  split; [reflexivity|].
  exists {| m := 5; k := 1; b := {| Bitmap.size := 8; Bitmap.data := [0] |} |}.
  split; [reflexivity|]. simpl. repeat split; lia.
Qed.

(** C4, as the code has it: on fewer than sixteen bytes [NewFromData]
    builds no filter, it panics at the slice expression [data[8+8:]]; on
    sixteen bytes or more it always returns a filter, whose fields are the
    decoded header and whose bit array is the rest, with no check of one
    against the other. *)
Theorem NewFromData_outcome (data : list Z) :
  ((length data < 16)%nat -> NewFromData data = Panic SliceBoundsOutOfRange) /\
  ((16 <= length data)%nat ->
     NewFromData data =
       Ok {| m := Uint64 data;
             k := Uint64 (skipn 8 data);
             b := Bitmap.NewFromData (skipn 16 data) |}).
Proof.
  split; [apply NewFromData_short | apply NewFromData_Ok].
Qed.

Lemma NewFromData_outcome_witness :
  NewFromData [1; 2; 3] = Panic SliceBoundsOutOfRange /\
  NewFromData (Data (New 5 1)) =
    Ok {| m := 5; k := 1; b := Bitmap.NewFromData [0] |}.
Proof.
  split.
  - apply (proj1 (NewFromData_outcome [1; 2; 3])). simpl. lia.
  - apply (proj2 (NewFromData_outcome (Data (New 5 1)))). simpl. lia.
Defined.

(** Sixteen bytes announcing a thousand bits and carrying none are not a
    well-formed export, and [NewFromData] returns a filter from them. *)
Lemma NewFromData_outcome_counterexample :
  let data := PutUint64 1000 ++ PutUint64 3 in
  layout_ok data = false /\
  NewFromData data =
    Ok {| m := 1000; k := 3; b := {| Bitmap.size := 0; Bitmap.data := [] |} |}.
Proof.
  split; reflexivity.
Qed.

(** C3, as the code has it: construction does not reject [k = 0].  [New]
    with [k = 0] fails to return only when the bit array is not allocated;
    the filter it returns has [k = 0], every run of [Add], [Contains] and
    [Data] calls on it returns and leaves it unchanged, [Contains] answers
    [true] for every value, and [NewFromData] accepts its export and
    rebuilds a filter with the same [m] and [k = 0]. *)
Theorem zero_rounds_accepted (GenHashInts : list Z -> Z -> list Z)
    (allocates : Z -> bool) (m0 : Z) (ops : list op) :
  is_uint64 m0 ->
  (New_outcome allocates m0 0 = None <-> allocates m0 = false) /\
  forall bf, New_outcome allocates m0 0 = Some bf ->
    k bf = 0 /\
    run GenHashInts ops bf = Ok bf /\
    (forall v, Contains GenHashInts bf v = Ok true) /\
    exists bf',
      NewFromData (Data bf) = Ok bf' /\ m bf' = m0 /\ k bf' = 0 /\
      forall v, Contains GenHashInts bf' v = Ok true.
Proof.
  intros Hm. unfold New_outcome. destruct (allocates m0).
  - split; [split; discriminate|]. intros bf Hbf. injection Hbf as <-.
    split; [reflexivity|].
    split; [apply (run_zero_rounds GenHashInts ops m0 (Bitmap.New m0))|].
    split; [reflexivity|].
    exists {| m := m0; k := 0;
              b := Bitmap.NewFromData (Bitmap.data (Bitmap.New m0)) |}.
    split; [|repeat split].
    apply (NewFromData_Data (New m0 0)); [exact Hm | unfold is_uint64; simpl; lia].
  - split; [split; reflexivity|]. discriminate.
Qed.

Lemma zero_rounds_accepted_witness :
  let allocates := fun c => c <=? 2 ^ 32 in
  New_outcome allocates 64 0 = Some (New 64 0) /\
  k (New 64 0) = 0 /\
  run sample_hash [OpAdd "gostl"; OpContains "x"; OpData] (New 64 0)
    = Ok (New 64 0) /\
  (forall v, Contains sample_hash (New 64 0) v = Ok true) /\
  exists bf',
    NewFromData (Data (New 64 0)) = Ok bf' /\ m bf' = 64 /\ k bf' = 0 /\
    forall v, Contains sample_hash bf' v = Ok true.
Proof.
  intros allocates. split; [reflexivity|].
  destruct (zero_rounds_accepted sample_hash allocates 64
              [OpAdd "gostl"; OpContains "x"; OpData]) as [_ H];
    [unfold is_uint64; lia|].
  apply H. reflexivity.
Defined.

(** [New] with [k = 0] is not rejected: the filter exists and answers. *)
Lemma New_accepts_all_counterexample :
  New 64 0 = {| m := 64; k := 0; b := Bitmap.New 64 |} /\
  k (New 64 0) = 0 /\
  Contains sample_hash (New 64 0) "gostl" = Ok true.
Proof.
  repeat split.
Qed.

(** * Further properties of the filter *)

(** ** More on single bits *)

Module BitmapBits.
Import Bitmap BitmapFacts.

Lemma lookup_repeat {A : Type} (x : A) (n i : nat) :
  (i < n)%nat -> repeat x n !! i = Some x.
Proof.
  revert i. induction n as [|n IH]; intros i Hi; [lia|].
  destruct i as [|i]; simpl; [reflexivity | apply IH; lia].
Qed.

(** A fresh bit array reads zero everywhere below its capacity. *)
Lemma New_unset (capacity i : Z) :
  0 <= i < capacity -> IsSet (New capacity) i = Ok false.
Proof.
  intros Hi. apply IsSet_Ok. simpl. split; [exact Hi|]. exists 0. split.
  - apply lookup_repeat.
    assert (i / 8 < (capacity + 7) / 8).
    { apply Z.div_lt_upper_bound; [lia|].
      pose proof (Z.div_mod (capacity + 7) 8 ltac:(lia)).
      pose proof (Z.mod_pos_bound (capacity + 7) 8 ltac:(lia)). lia. }
    assert (0 <= i / 8) by (apply Z.div_pos; lia). lia.
  - symmetry. apply Z.bits_0.
Qed.

Lemma same_cell (i r : Z) :
  0 <= i -> 0 <= r ->
  Z.to_nat (i / 8) = Z.to_nat (r / 8) -> i mod 8 = r mod 8 -> r = i.
Proof.
  intros Hi Hr Hq Hm.
  assert (0 <= i / 8) by (apply Z.div_pos; lia).
  assert (0 <= r / 8) by (apply Z.div_pos; lia).
  rewrite (Z.div_mod i 8), (Z.div_mod r 8) by lia.
  replace (r / 8) with (i / 8) by lia. lia.
Qed.

(** [set] turns on the one bit it is asked for, and no other. *)
Lemma Set_frame b i b' r : Set_ b i = Ok b' -> bit b' r -> bit b r \/ r = i.
Proof.
  intros H Hr. apply Set_Ok in H as (Hi & w & Hw & ->).
  apply IsSet_Ok in Hr as (Hrr & w' & Hw' & Hb). simpl in Hrr, Hw'.
  destruct (Nat.eq_dec (Z.to_nat (i / 8)) (Z.to_nat (r / 8))) as [E|E].
  - rewrite <- E in Hw'.
    rewrite list_lookup_insert_eq in Hw' by (eapply lookup_lt_Some; eauto).
    injection Hw' as <-.
    rewrite Z.lor_spec, Z.shiftl_1_l, Z.pow2_bits_eqb in Hb
      by (apply Z.mod_pos_bound; lia).
    symmetry in Hb. apply orb_true_iff in Hb as [Hb|Hb].
    + left. apply IsSet_Ok. split; [exact Hrr|]. exists w.
      rewrite <- E. auto.
    + right. apply Z.eqb_eq in Hb. apply same_cell; auto; lia.
  - left. rewrite list_lookup_insert_ne in Hw' by exact E.
    apply IsSet_Ok. eauto.
Qed.

(** Setting a bit that is set already changes nothing. *)
Lemma Set_id b i : bit b i -> Set_ b i = Ok b.
Proof.
  intros H. apply IsSet_Ok in H as (Hi & w & Hw & Hb).
  apply Set_Ok. split; [exact Hi|]. exists w. split; [exact Hw|].
  assert (Hl : Z.lor w (Z.shiftl 1 (i mod 8)) = w).
  { apply Z.bits_inj'. intros n Hn.
    rewrite Z.lor_spec, Z.shiftl_1_l, Z.pow2_bits_eqb
      by (apply Z.mod_pos_bound; lia).
    destruct (Z.eqb_spec (i mod 8) n) as [<-|_];
      [rewrite <- Hb; reflexivity | apply orb_false_r]. }
  rewrite Hl, list_insert_id by exact Hw. destruct b; reflexivity.
Qed.

(** Two bits can be set in either order. *)
Lemma Set_comm b i j b1 b12 :
  Set_ b i = Ok b1 -> Set_ b1 j = Ok b12 ->
  exists b2, Set_ b j = Ok b2 /\ Set_ b2 i = Ok b12.
Proof.
  intros H1 H2.
  apply Set_Ok in H1 as (Hi & wi & Hwi & ->).
  apply Set_Ok in H2 as (Hj & wj' & Hwj' & ->). simpl in Hj, Hwj'.
  set (ni := Z.to_nat (i / 8)) in *. set (nj := Z.to_nat (j / 8)) in *.
  set (mi := Z.shiftl 1 (i mod 8)). set (mj := Z.shiftl 1 (j mod 8)).
  fold mi in Hwj'. simpl.
  destruct (Nat.eq_dec ni nj) as [E|E].
  - rewrite <- E in *.
    rewrite list_lookup_insert_eq in Hwj' by (eapply lookup_lt_Some; eauto).
    injection Hwj' as <-.
    exists {| size := size b; data := <[ni := Z.lor wi mj]> (data b) |}.
    split.
    + apply Set_Ok. split; [exact Hj|]. exists wi.
      change (Z.to_nat (j / 8)) with nj. rewrite <- E.
      split; [exact Hwi | reflexivity].
    + apply Set_Ok. simpl. split; [exact Hi|]. exists (Z.lor wi mj). split.
      * apply list_lookup_insert_eq. eapply lookup_lt_Some; eauto.
      * rewrite !list_insert_insert_eq. do 2 f_equal.
        rewrite <- !Z.lor_assoc. f_equal. apply Z.lor_comm.
  - rewrite list_lookup_insert_ne in Hwj' by exact E.
    exists {| size := size b; data := <[nj := Z.lor wj' mj]> (data b) |}.
    split.
    + apply Set_Ok. split; [exact Hj|]. exists wj'.
      split; [exact Hwj' | reflexivity].
    + apply Set_Ok. simpl. split; [exact Hi|]. exists wi. split.
      * rewrite list_lookup_insert_ne by auto. exact Hwi.
      * f_equal. apply list_insert_insert_ne. auto.
Qed.

End BitmapBits.

(** ** Exactly which bits [Add] sets *)

Section FilterBits.

Variable GenHashInts : list Z -> Z -> list Z.

Import BitmapFacts BitmapBits.

Local Abbreviation Add := (Add GenHashInts).
Local Abbreviation Contains := (Contains GenHashInts).
Local Abbreviation hashes_of := (hashes_of GenHashInts).
Local Abbreviation run := (run GenHashInts).
Local Abbreviation hash_delivers := (hash_delivers GenHashInts).
Local Abbreviation sound := (sound GenHashInts).
Local Abbreviation hits := (hits GenHashInts).

Lemma add_loop_frame hashs m n r : forall i b b',
  add_loop n i m hashs b = Ok b' -> Bitmap.bit b' r ->
  Bitmap.bit b r \/
  exists j h, i <= j < i + Z.of_nat n /\ hashs !! Z.to_nat j = Some h /\ r = h mod m.
Proof.
  induction n as [|n IH]; intros i b b' H Hr; simpl in H.
  - injection H as <-. auto.
  - apply bind_Ok_inv in H as (h & Hh & H).
    apply bind_Ok_inv in H as (r0 & Hr0 & H).
    apply bind_Ok_inv in H as (b1 & Hs & H).
    apply index_Ok in Hh as [Hi Hh]. apply umod_Ok in Hr0 as [Hm ->].
    destruct (IH _ _ _ H Hr) as [Hb1|(j & h' & Hj & Hh' & ->)].
    + destruct (Set_frame _ _ _ _ Hs Hb1) as [Hb| ->]; [auto|].
      right. exists i, h. split; [lia | auto].
    + right. exists j, h'. split; [lia | auto].
Qed.

Lemma add_loop_id hashs m b n : forall i,
  0 <= i -> covered hashs m b i n -> add_loop n i m hashs b = Ok b.
Proof.
  induction n as [|n IH]; intros i Hi Hc; [reflexivity|].
  apply covered_S in Hc as [(h & Hh & Hm & Hb) Hc]; [|exact Hi]. simpl.
  assert (E1 : index hashs i = Ok h) by (apply index_Ok; auto).
  assert (E2 : umod h m = Ok (h mod m)) by (apply umod_Ok; auto).
  rewrite E1; simpl. rewrite E2; simpl. rewrite (Set_id _ _ Hb); simpl.
  apply IH; [lia | exact Hc].
Qed.

Lemma contains_loop_false hashs m b n : forall i,
  0 <= i -> contains_loop n i m hashs b = Ok false ->
  exists j h, i <= j < i + Z.of_nat n /\ hashs !! Z.to_nat j = Some h /\
    Bitmap.IsSet b (h mod m) = Ok false.
Proof.
  induction n as [|n IH]; intros i Hi H; simpl in H; [discriminate|].
  apply bind_Ok_inv in H as (h & Hh & H).
  apply bind_Ok_inv in H as (r & Hr & H).
  apply bind_Ok_inv in H as (s & Hs & H).
  apply index_Ok in Hh as [_ Hh]. apply umod_Ok in Hr as [Hm ->].
  destruct s; simpl in H.
  - destruct (IH (i + 1) ltac:(lia) H) as (j & h' & Hj & Hh' & Hf).
    exists j, h'. split; [lia | auto].
  - exists i, h. split; [lia | auto].
Qed.

Lemma hits_same bf bf' v r :
  m bf' = m bf -> k bf' = k bf -> hits bf' v r <-> hits bf v r.
Proof.
  intros Hm Hk. unfold hits, hashes_of. rewrite Hm, Hk. reflexivity.
Qed.

Lemma covered_hits bf v b0 :
  hash_delivers (k bf) -> m bf <> 0 ->
  covered (hashes_of bf v) (m bf) b0 0 (Z.to_nat (k bf)) <->
  forall r, hits bf v r -> Bitmap.bit b0 r.
Proof.
  intros Hd Hm. split.
  - intros Hc r (i & h & Hi & Hh & ->).
    destruct (Hc i ltac:(lia)) as (h' & Hh' & _ & Hb).
    assert (h' = h) by congruence. subst h'. exact Hb.
  - intros Hh j Hj.
    destruct (lookup_lt_is_Some_2 (hashes_of bf v) (Z.to_nat j)) as [h Hl].
    { rewrite (hashes_length GenHashInts bf v Hd). lia. }
    exists h. split; [exact Hl|]. split; [exact Hm|].
    apply Hh. exists j, h. split; [lia | auto].
Qed.

Lemma Add_bits bf v bf' :
  Add bf v = Ok bf' ->
  forall r, Bitmap.bit (b bf') r <-> Bitmap.bit (b bf) r \/ hits bf v r.
Proof.
  intros H r. pose proof (Add_Ok _ _ _ _ H) as (_ & _ & Hi & Hc).
  unfold Add in H. apply bind_Ok_inv in H as (b1 & Hl & H).
  injection H as <-. simpl in *. split.
  - intros Hr. destruct (add_loop_frame _ _ _ _ _ _ _ Hl Hr)
      as [Hb|(j & h & Hj & Hh & ->)]; [auto|].
    right. exists j, h. split; [lia | auto].
  - intros [Hb|(i & h & Hr & Hh & ->)].
    + destruct Hi as (_ & _ & Hi). apply Hi. exact Hb.
    + destruct (Hc i ltac:(lia)) as (h' & Hh' & _ & Hb).
      assert (h' = h) by congruence. subst h'. exact Hb.
Qed.

Lemma run_bits ops : forall bf bf',
  run ops bf = Ok bf' ->
  forall r, Bitmap.bit (b bf') r <->
            Bitmap.bit (b bf) r \/ exists v, In v (added ops) /\ hits bf v r.
Proof.
  induction ops as [|o ops IH]; intros bf bf' H r; simpl in H.
  - injection H as <-. simpl. split; [auto | intros [Hb|(v & [] & _)]; exact Hb].
  - apply bind_Ok_inv in H as (bf1 & H1 & H).
    rewrite (IH _ _ H r).
    assert (Hi1 : forall v, hits bf1 v r <-> hits bf v r).
    { intros v. apply step_Ok in H1 as (Hm & Hk & _). apply hits_same; auto. }
    destruct o as [w|w|]; simpl in H1.
    + rewrite (Add_bits _ _ _ H1 r). simpl. split.
      * intros [[Hb|Hw]|(v & Hv & Hh)]; [auto | right; eauto |].
        right. exists v. rewrite <- Hi1. auto.
      * intros [Hb|(v & [<-|Hv] & Hh)]; [auto | auto |].
        right. exists v. rewrite Hi1. auto.
    + apply bind_Ok_inv in H1 as (s & _ & H1). injection H1 as <-. reflexivity.
    + injection H1 as <-. reflexivity.
Qed.

(** ** Order of insertion *)

Lemma Set_add_loop_comm hashs m r n : forall i b b1 b2,
  Bitmap.Set_ b r = Ok b1 -> add_loop n i m hashs b1 = Ok b2 ->
  exists c, add_loop n i m hashs b = Ok c /\ Bitmap.Set_ c r = Ok b2.
Proof.
  induction n as [|n IH]; intros i b b1 b2 Hs H; simpl in H.
  - injection H as <-. exists b. auto.
  - apply bind_Ok_inv in H as (h & Hh & H).
    apply bind_Ok_inv in H as (r' & Hr' & H).
    apply bind_Ok_inv in H as (b1' & Hs' & H).
    destruct (Set_comm _ _ _ _ _ Hs Hs') as (b' & Hb' & Hb1').
    destruct (IH _ _ _ _ Hb1' H) as (c & Hc & Hcr).
    exists c. split; [|exact Hcr].
    simpl. rewrite Hh; simpl. rewrite Hr'; simpl. rewrite Hb'; simpl. exact Hc.
Qed.

Lemma add_loop_comm hashs1 m1 hashs2 m2 n2 i2 n1 : forall i1 b b1 b12,
  add_loop n1 i1 m1 hashs1 b = Ok b1 -> add_loop n2 i2 m2 hashs2 b1 = Ok b12 ->
  exists b2,
    add_loop n2 i2 m2 hashs2 b = Ok b2 /\ add_loop n1 i1 m1 hashs1 b2 = Ok b12.
Proof.
  induction n1 as [|n1 IH]; intros i1 b b1 b12 H1 H2; simpl in H1.
  - injection H1 as <-. exists b12. auto.
  - apply bind_Ok_inv in H1 as (h & Hh & H1).
    apply bind_Ok_inv in H1 as (r & Hr & H1).
    apply bind_Ok_inv in H1 as (b' & Hs & H1).
    destruct (IH _ _ _ _ H1 H2) as (b2' & Hb2' & Hb12).
    destruct (Set_add_loop_comm _ _ _ _ _ _ _ _ Hs Hb2') as (c & Hc & Hcr).
    exists c. split; [exact Hc|].
    simpl. rewrite Hh; simpl. rewrite Hr; simpl. rewrite Hcr; simpl. exact Hb12.
Qed.

Lemma Add_comm bf v w bf1 bf12 :
  Add bf v = Ok bf1 -> Add bf1 w = Ok bf12 ->
  exists bf2, Add bf w = Ok bf2 /\ Add bf2 v = Ok bf12.
Proof.
  unfold Add. intros H1 H2.
  apply bind_Ok_inv in H1 as (b1 & Hl1 & H1). injection H1 as <-.
  change (hashes_of {| m := m bf; k := k bf; b := b1 |} w)
    with (hashes_of bf w) in H2.
  cbn [m k b] in H2.
  apply bind_Ok_inv in H2 as (b12 & Hl2 & H2). injection H2 as <-.
  destruct (add_loop_comm _ _ _ _ _ _ _ _ _ _ _ Hl1 Hl2) as (b2 & Hb2 & Hb12).
  exists {| m := m bf; k := k bf; b := b2 |}.
  rewrite Hb2. cbn [bind m k b].
  change (hashes_of {| m := m bf; k := k bf; b := b2 |} v)
    with (hashes_of bf v).
  rewrite Hb12. cbn [bind]. auto.
Qed.

(** ** Properties of [Add] and [Contains] *)

(** X1. A fresh filter with at least one bit and one round answers [false]
    for every value. *)
Theorem fresh_filter_empty (m0 k0 : Z) (v : string) :
  1 <= m0 -> 1 <= k0 -> hash_delivers k0 -> Contains (New m0 k0) v = Ok false.
Proof.
  intros Hm Hk Hd.
  assert (Hs : sound (New m0 k0)) by (apply New_sound; auto).
  destruct (Contains_total _ _ v Hs) as [[|] Hc]; [|exact Hc]. exfalso.
  apply Contains_true in Hc. simpl in Hc.
  destruct (Hc 0 ltac:(lia)) as (h & _ & _ & Hb).
  pose proof (Z.mod_pos_bound h m0 ltac:(lia)) as Hr.
  unfold Bitmap.bit in Hb. rewrite (New_unset m0 (h mod m0) Hr) in Hb.
  discriminate.
Qed.

(** X2. Adding a value that the filter already reports changes nothing. *)
Theorem Add_present_unchanged (bf : BloomFilter) (v : string) :
  Contains bf v = Ok true -> Add bf v = Ok bf.
Proof.
  intros H. apply Contains_true in H. unfold Add.
  rewrite (add_loop_id _ _ _ _ 0 ltac:(lia) H). simpl.
  destruct bf; reflexivity.
Qed.

(** X3. [Add] is idempotent: a second [Add] of the same value returns the
    filter that the first one produced. *)
Theorem Add_idempotent (bf : BloomFilter) (v : string) (bf1 : BloomFilter) :
  Add bf v = Ok bf1 -> Add bf1 v = Ok bf1.
Proof.
  intros H. apply Add_Contains in H. apply Contains_true in H. unfold Add.
  rewrite (add_loop_id _ _ _ _ 0 ltac:(lia) H). simpl.
  destruct bf1; reflexivity.
Qed.

(** X4. [Add] keeps [m] and [k] and sets exactly the bits of the value: a
    bit is one afterwards iff it was one before or is one of the reduced
    hashes of the value. *)
Theorem Add_sets_exactly (bf : BloomFilter) (v : string) (bf' : BloomFilter) :
  Add bf v = Ok bf' ->
  m bf' = m bf /\ k bf' = k bf /\
  forall r, Bitmap.bit (b bf') r <-> Bitmap.bit (b bf) r \/ hits bf v r.
Proof.
  intros H. pose proof (Add_Ok _ _ _ _ H) as (Hm & Hk & _).
  split; [exact Hm|]. split; [exact Hk|]. apply Add_bits. exact H.
Qed.

(** X5. On a filter built by [New] with at least one bit and one round,
    every run of calls returns, and afterwards [Contains] of a value returns
    [true] exactly when each bit of the value is a bit of some value that
    the run has added, and [false] otherwise. *)
Theorem Contains_exact (m0 k0 : Z) (ops : list op) :
  1 <= m0 -> 1 <= k0 -> hash_delivers k0 ->
  exists bf,
    run ops (New m0 k0) = Ok bf /\
    forall w, exists s,
      Contains bf w = Ok s /\
      (s = true <->
       forall r, hits (New m0 k0) w r ->
                 exists v, In v (added ops) /\ hits (New m0 k0) v r).
Proof.
  intros Hm Hk Hd.
  assert (Hs0 : sound (New m0 k0)) by (apply New_sound; auto).
  destruct (run_total _ ops _ Hs0) as [bf Hr]. exists bf. split; [exact Hr|].
  pose proof (run_Ok _ _ _ _ Hr) as (Em & Ek & Hi).
  assert (Hs : sound bf) by (eapply sound_kept; eauto).
  simpl in Em, Ek.
  intros w. destruct (Contains_total _ _ w Hs) as [s Hc]. exists s.
  split; [exact Hc|].
  assert (Hfresh : forall r, hits (New m0 k0) w r ->
                             ~ Bitmap.bit (b (New m0 k0)) r).
  { intros r (i & h & _ & _ & ->) Hb. simpl in Hb.
    pose proof (Z.mod_pos_bound h m0 ltac:(lia)) as Hrange.
    unfold Bitmap.bit in Hb. rewrite (New_unset m0 _ Hrange) in Hb.
    discriminate. }
  assert (Hiff : Contains bf w = Ok true <->
                 forall r, hits (New m0 k0) w r -> Bitmap.bit (b bf) r).
  { rewrite Contains_true, covered_hits by (rewrite ?Ek, ?Em; auto; lia).
    split; intros H r Hh; apply H; revert Hh; apply hits_same; auto. }
  split.
  - intros ->. intros r Hh.
    destruct (proj1 (run_bits _ _ _ Hr r) (proj1 Hiff Hc r Hh)) as [Hb|Hv];
      [destruct (Hfresh r Hh Hb) | exact Hv].
  - intros H.
    assert (Ht : Contains bf w = Ok true).
    { apply Hiff. intros r Hh. apply (run_bits _ _ _ Hr r). right. auto. }
    congruence.
Qed.

(** X6. The order of insertion does not matter: adding the same values in
    another order gives the same filter. *)
Theorem Add_order (vs vs' : list string) (bf bf' : BloomFilter) :
  Permutation vs vs' ->
  run (List.map OpAdd vs) bf = Ok bf' ->
  run (List.map OpAdd vs') bf = Ok bf'.
Proof.
  intros Hp. revert bf bf'.
  induction Hp as [|x l l' _ IH|x y l|l l' l'' _ IH1 _ IH2]; intros bf bf' H.
  - exact H.
  - simpl in *. apply bind_Ok_inv in H as (bf1 & H1 & H).
    rewrite H1. simpl. apply IH. exact H.
  - simpl in *. apply bind_Ok_inv in H as (bf1 & H1 & H).
    apply bind_Ok_inv in H as (bf12 & H2 & H).
    destruct (Add_comm _ _ _ _ _ H1 H2) as (bf2 & Hb2 & Hb12).
    rewrite Hb2. simpl. rewrite Hb12. simpl. exact H.
  - apply IH2, IH1, H.
Qed.

(** X7. No run of calls changes [m], [k], the length of the export or its
    sixteen bytes of header. *)
Theorem run_keeps_header (ops : list op) (bf bf' : BloomFilter) :
  run ops bf = Ok bf' ->
  m bf' = m bf /\ k bf' = k bf /\
  length (Data bf') = length (Data bf) /\
  firstn 16 (Data bf') = firstn 16 (Data bf).
Proof.
  intros H. apply run_Ok in H as (Hm & Hk & _ & Hl & _).
  split; [exact Hm|]. split; [exact Hk|].
  rewrite !Data_eq, Hm, Hk. split.
  - rewrite !length_app. unfold Bitmap.Data. lia.
  - reflexivity.
Qed.

(** X8. A filter of one bit is saturated by its first insertion: after one
    [Add], [Contains] returns [true] for every value. *)
Theorem one_bit_saturates (k0 : Z) (v : string) :
  1 <= k0 -> hash_delivers k0 ->
  exists bf, Add (New 1 k0) v = Ok bf /\ forall w, Contains bf w = Ok true.
Proof.
  intros Hk Hd.
  assert (Hs0 : sound (New 1 k0)) by (apply New_sound; auto; lia).
  destruct (Add_total _ _ v Hs0) as [bf Ha]. exists bf. split; [exact Ha|].
  pose proof (Add_Ok _ _ _ _ Ha) as (Em & Ek & _ & Hc). simpl in Em, Ek, Hc.
  destruct (Hc 0 ltac:(lia)) as (h0 & _ & _ & Hb0). rewrite Z.mod_1_r in Hb0.
  intros w. apply Contains_true.
  apply covered_hits; [rewrite Ek; exact Hd | rewrite Em; lia |].
  intros r (i & h & _ & _ & ->). rewrite Em, Z.mod_1_r. exact Hb0.
Qed.

(** X9. A [false] from [Contains] points at a bit of the value that is
    zero. *)
Theorem Contains_false_unset (bf : BloomFilter) (v : string) :
  Contains bf v = Ok false ->
  exists r, hits bf v r /\ Bitmap.IsSet (b bf) r = Ok false.
Proof.
  unfold Contains. intros H.
  apply contains_loop_false in H as (j & h & Hj & Hh & Hf); [|lia].
  exists (h mod m bf). split; [|exact Hf].
  exists j, h. split; [lia | auto].
Qed.

End FilterBits.

(** ** Import, then export *)

Lemma byte_high_bits (w n : Z) : is_byte w -> 8 <= n -> Z.testbit w n = false.
Proof.
  intros Hw Hn. destruct (Z.eq_dec w 0) as [->|Hnz]; [apply Z.bits_0|].
  apply Z.bits_above_log2; [apply Hw|].
  assert (Z.log2 w < 8) by (apply Z.log2_lt_pow2; unfold is_byte in Hw; lia).
  lia.
Qed.

Lemma byte_of_shiftr_eq (u c w : Z) :
  0 <= c -> is_byte w ->
  (forall n, 0 <= n < 8 -> Z.testbit u (n + c) = Z.testbit w n) ->
  byte_of (Z.shiftr u c) = w.
Proof.
  intros Hc Hw H. apply Z.bits_inj'. intros n Hn. unfold byte_of.
  rewrite Z.land_spec, Z.shiftr_spec by exact Hn.
  change 255 with (Z.ones 8). rewrite Z.testbit_ones_nonneg by lia.
  destruct (Z.ltb_spec n 8) as [Hlt|Hge].
  - rewrite andb_true_r. apply H. lia.
  - rewrite andb_false_r. symmetry. apply byte_high_bits; assumption.
Qed.

(** Encoding undoes decoding. *)
Lemma PutUint64_Uint64 (l : list Z) :
  (8 <= length l)%nat -> Forall is_byte l -> PutUint64 (Uint64 l) = firstn 8 l.
Proof.
  intros Hl Hb.
  destruct l as [|b0 [|b1 [|b2 [|b3 [|b4 [|b5 [|b6 [|b7 l]]]]]]]];
    simpl in Hl; try lia.
  repeat match goal with H : Forall _ (_ :: _) |- _ => inversion_clear H end.
  assert (Hf : Forall is_byte [b0; b1; b2; b3; b4; b5; b6; b7]).
  { repeat (apply List.Forall_cons; [assumption|]). apply List.Forall_nil. }
  set (u := Uint64 (b0 :: b1 :: b2 :: b3 :: b4 :: b5 :: b6 :: b7 :: l)).
  unfold PutUint64. simpl firstn.
  rewrite <- (Z.shiftr_0_r u) at 1.
  repeat f_equal; apply byte_of_shiftr_eq; try assumption; try lia;
    intros n Hn; unfold u; rewrite Uint64_bits by (assumption || lia);
    decide_cmp; f_equal; lia.
Qed.

(** X10. Importing bytes and exporting the filter gives the bytes back. *)
Theorem NewFromData_then_Data (data : list Z) (bf : BloomFilter) :
  Forall is_byte data -> NewFromData data = Ok bf -> Data bf = data.
Proof.
  intros Hb H. destruct (le_lt_dec 16 (length data)) as [Hl|Hl].
  - rewrite NewFromData_Ok in H by exact Hl. injection H as <-.
    rewrite Data_eq. cbn [m k b Bitmap.data Bitmap.NewFromData].
    rewrite !PutUint64_Uint64;
      try (rewrite ?length_skipn; lia); try (apply Forall_drop); try exact Hb.
    replace (skipn 16 data) with (skipn 8 (skipn 8 data))
      by (rewrite drop_drop; reflexivity).
    rewrite !firstn_skipn. reflexivity.
  - rewrite NewFromData_short in H by exact Hl. discriminate.
Qed.

(** ** The further properties on concrete filters *)

Lemma fresh_filter_empty_witness :
  Contains sample_hash (New 64 4) "gostl" = Ok false.
Proof.
  apply (fresh_filter_empty sample_hash 64 4 "gostl"); [lia | lia |].
  apply sample_hash_delivers. lia.
Defined.

Lemma Add_present_unchanged_witness :
  let bf := {| m := 64; k := 4;
               b := {| Bitmap.size := 64;
                       Bitmap.data := [0; 0; 0; 0; 64; 68; 4; 0] |} |} in
  Contains sample_hash bf "gostl" = Ok true /\ Add sample_hash bf "gostl" = Ok bf.
Proof.
  intros bf. split; [reflexivity|].
  apply (Add_present_unchanged sample_hash bf "gostl"). reflexivity.
Defined.

Lemma Add_idempotent_witness :
  let bf1 := {| m := 64; k := 4;
                b := {| Bitmap.size := 64;
                        Bitmap.data := [0; 0; 0; 0; 64; 68; 4; 0] |} |} in
  Add sample_hash (New 64 4) "gostl" = Ok bf1 /\
  Add sample_hash bf1 "gostl" = Ok bf1.
Proof.
  intros bf1. split; [reflexivity|].
  apply (Add_idempotent sample_hash (New 64 4) "gostl" bf1). reflexivity.
Defined.

Lemma Add_sets_exactly_witness :
  let bf' := {| m := 64; k := 4;
                b := {| Bitmap.size := 64;
                        Bitmap.data := [0; 0; 0; 0; 64; 68; 4; 0] |} |} in
  m bf' = 64 /\ k bf' = 4 /\
  forall r, Bitmap.bit (b bf') r <->
            Bitmap.bit (b (New 64 4)) r \/ hits sample_hash (New 64 4) "gostl" r.
Proof.
  intros bf'.
  apply (Add_sets_exactly sample_hash (New 64 4) "gostl" bf'). reflexivity.
Defined.

Lemma Contains_exact_witness :
  exists bf,
    run sample_hash [OpAdd "gostl"; OpContains "x"; OpAdd "y"] (New 64 4) = Ok bf /\
    forall w, exists s,
      Contains sample_hash bf w = Ok s /\
      (s = true <->
       forall r, hits sample_hash (New 64 4) w r ->
                 exists v, In v ["gostl"; "y"]%string /\
                           hits sample_hash (New 64 4) v r).
Proof.
  apply (Contains_exact sample_hash 64 4 [OpAdd "gostl"; OpContains "x"; OpAdd "y"]);
    [lia | lia | apply sample_hash_delivers; lia].
Defined.

Lemma Add_order_witness :
  run sample_hash (List.map OpAdd ["b"; "a"]%string) (New 64 4) =
    Ok {| m := 64; k := 4;
          b := {| Bitmap.size := 64;
                  Bitmap.data := [132; 64; 2; 0; 0; 4; 72; 32] |} |}.
Proof.
  apply (Add_order sample_hash ["a"; "b"]%string ["b"; "a"]%string);
    [apply perm_swap | reflexivity].
Defined.

Lemma run_keeps_header_witness :
  let bf' := {| m := 64; k := 4;
                b := {| Bitmap.size := 64;
                        Bitmap.data := [0; 0; 0; 0; 64; 68; 4; 0] |} |} in
  m bf' = m (New 64 4) /\ k bf' = k (New 64 4) /\
  length (Data bf') = length (Data (New 64 4)) /\
  firstn 16 (Data bf') = firstn 16 (Data (New 64 4)).
Proof.
  intros bf'.
  apply (run_keeps_header sample_hash [OpAdd "gostl"; OpData] (New 64 4) bf').
  reflexivity.
Defined.

Lemma one_bit_saturates_witness :
  exists bf,
    Add sample_hash (New 1 3) "gostl" = Ok bf /\
    forall w, Contains sample_hash bf w = Ok true.
Proof.
  apply (one_bit_saturates sample_hash 3 "gostl");
    [lia | apply sample_hash_delivers; lia].
Defined.

Lemma Contains_false_unset_witness :
  exists r,
    hits sample_hash (New 64 4) "gostl" r /\
    Bitmap.IsSet (b (New 64 4)) r = Ok false.
Proof.
  apply (Contains_false_unset sample_hash (New 64 4) "gostl"). reflexivity.
Defined.

Lemma NewFromData_then_Data_witness :
  let data := [5; 0; 0; 0; 0; 0; 0; 0; 1; 0; 0; 0; 0; 0; 0; 0; 0] in
  Data {| m := 5; k := 1; b := Bitmap.NewFromData [0] |} = data.
Proof.
  intros data. apply (NewFromData_then_Data data); [|reflexivity].
  unfold data.
  repeat (apply List.Forall_cons; [unfold is_byte; lia|]). apply List.Forall_nil.
Defined.
